(** * The MPC drive-by-wire node ([dbw_mpc.h]): model and properties

    A shallow embedding of [ros/src/twist_controller/src/dbw_mpc.h]:
    the two free functions [polyeval] and [polyfit], the class [DbwMpc]
    with its four subscriber callbacks, the pipeline [calculate] and the
    publishing loop [run].

    Conventions of the model.
    - A C++ [double] (and the [float32] fields of the outgoing messages)
      is a real number of [R]: rounding, infinities and NaN are not
      modelled.  [cos], [sin], [atan] and [pow] are the functions of the
      Standard Library.
    - [int] and [Eigen::Index] are integers of [Z]; [size_t] is a [Z]
      reduced modulo [2^64].
    - A computation that can stop early returns an [outcome]: a failed
      [assert] is [AssertionFailure], and an access outside the storage
      of a [std::vector] (undefined behaviour in C++) is [OutOfBounds].
    - Code of the repository that is not in this header is a variable of
      a Section: [getClosestWaypoint] (libwaypoint_follower.h),
      [MPC::Solve] (MPC.h) and Eigen's [householderQr().solve()]. *)

From Stdlib Require Import Reals Lra Lia ZArith List Bool.
Import ListNotations.

Open Scope R_scope.

(** ** Results of fallible code *)

Inductive outcome (A : Type) : Type :=
| Done (a : A)
| AssertionFailure
| OutOfBounds.

Arguments Done {A} a.
Arguments AssertionFailure {A}.
Arguments OutOfBounds {A}.

Definition bind {A B : Type} (m : outcome A) (k : A -> outcome B) : outcome B :=
  match m with
  | Done a => k a
  | AssertionFailure => AssertionFailure
  | OutOfBounds => OutOfBounds
  end.

Notation "x <- m ;; k" := (bind m (fun x => k))
  (at level 61, m at next level, right associativity).
Notation "' p <- m ;; k" := (bind m (fun x => match x with p => k end))
  (at level 61, p pattern, m at next level, right associativity).

(** [v[i]] on a [std::vector]: no check, outside the vector it is
    undefined behaviour. *)
Definition vector_at {A : Type} (v : list A) (i : nat) : outcome A :=
  match nth_error v i with
  | Some a => Done a
  | None => OutOfBounds
  end.

(** [v[i]] on an Eigen vector: guarded by [eigen_assert]. *)
Definition eigen_at (v : list R) (i : nat) : outcome R :=
  match nth_error v i with
  | Some a => Done a
  | None => AssertionFailure
  end.

(** ** Messages (the fields the node reads or writes) *)

Record Point := { pt_x : R; pt_y : R; pt_z : R }.
Record Quaternion := { q_x : R; q_y : R; q_z : R; q_w : R }.
Record Pose := { position : Point; orientation : Quaternion }.
Record PoseStamped := { ps_pose : Pose }.
Record Vector3 := { v3_x : R; v3_y : R; v3_z : R }.
Record Twist := { linear : Vector3; angular : Vector3 }.
Record TwistStamped := { ts_twist : Twist }.
Record Waypoint := { wp_pose : PoseStamped; wp_twist : TwistStamped }.
Record Lane := { lane_waypoints : list Waypoint }.

Definition ThrottleCmd_CMD_PERCENT : Z := 2.
Definition BrakeCmd_CMD_TORQUE : Z := 3.

(** What [run] hands to its three publishers. *)
Inductive command : Type :=
| SteeringCmd (enable : bool) (steering_wheel_angle_cmd : R)
| ThrottleCmd (enable : bool) (pedal_cmd_type : Z) (pedal_cmd : R)
| BrakeCmd (enable : bool) (pedal_cmd_type : Z) (pedal_cmd : R).

(** What [spinOnce] hands to the four subscriber callbacks. *)
Inductive message : Type :=
| OnEnabled (isEnabled : bool)
| OnWaypoints (newWaypoints : Lane)
| OnPose (newPose : PoseStamped)
| OnVelocity (newVelocity : TwistStamped).

(** ** [polyeval] *)

(** The loop [for (i = 0; i < coeffs.size(); i++) result += coeffs[i] * pow(x, i)],
    entered at index [i] with the coefficients still to visit. *)
Fixpoint polyeval_loop (coeffs : list R) (x : R) (i : nat) (result : R) : R :=
  match coeffs with
  | [] => result
  | c :: rest => polyeval_loop rest x (S i) (result + c * x ^ i)
  end.

Definition polyeval (coeffs : list R) (x : R) : R :=
  polyeval_loop coeffs x 0 0.

(** ** [polyfit] *)

(** Row [j] of the matrix [A]: [A(j,0) = 1] and [A(j,i+1) = A(j,i) * xvals(j)]
    for [i < order]; [a] is the entry the row starts with. *)
Fixpoint fill_row (a xj : R) (order : nat) : list R :=
  match order with
  | O => [a]
  | S k => a :: fill_row (a * xj) xj k
  end.

Definition design_matrix (xvals : list R) (order : nat) : list (list R) :=
  map (fun xj => fill_row 1 xj order) xvals.

(** The two assertions at the head of [polyfit]; [xvals.size()] is a
    signed [Eigen::Index]. *)
Definition polyfit_pre (xvals yvals : list R) (order : Z) : bool :=
  (Z.of_nat (length xvals) =? Z.of_nat (length yvals))%Z
  && ((1 <=? order)%Z && (order <=? Z.of_nat (length xvals) - 1)%Z).

Section Fit.

(** [A.householderQr().solve(yvals)] of Eigen. *)
Variable householderQr_solve : list (list R) -> list R -> list R.

Definition polyfit (xvals yvals : list R) (order : Z) : outcome (list R) :=
  if polyfit_pre xvals yvals order
  then Done (householderQr_solve (design_matrix xvals (Z.to_nat order)) yvals)
  else AssertionFailure.

End Fit.

(** ** Constants *)

Definition latency : R := 1 / 10.
Definition Lf : R := 267 / 100.

(** ** The class [DbwMpc] *)

(** The data members, in the order of the class.  The member [mpc] has
    no data of its own; its method [Solve] is a variable of the Section
    [Pipeline] below. *)
Record DbwMpc := {
  waypoint_set : bool;
  velocity_set : bool;
  pose_set : bool;
  enabled : bool;
  waypoints : Lane;
  pose : PoseStamped;
  velocity : TwistStamped;
  steer_value : R;
  throttle_value : R
}.

Definition Point_zero : Point := {| pt_x := 0; pt_y := 0; pt_z := 0 |}.
Definition Vector3_zero : Vector3 := {| v3_x := 0; v3_y := 0; v3_z := 0 |}.
Definition PoseStamped_default : PoseStamped :=
  {| ps_pose := {| position := Point_zero;
                   orientation := {| q_x := 0; q_y := 0; q_z := 0; q_w := 0 |} |} |}.
Definition TwistStamped_default : TwistStamped :=
  {| ts_twist := {| linear := Vector3_zero; angular := Vector3_zero |} |}.
Definition Lane_default : Lane := {| lane_waypoints := [] |}.

(** The constructor [DbwMpc() : enabled(false) {}].  Its initialiser list
    names [enabled] only: the three message members are built by their
    own default constructors, and the three other flags and the two
    command values keep whatever the storage of the object held, which
    the model takes as arguments. *)
Definition DbwMpc_new (waypoint_set0 velocity_set0 pose_set0 : bool)
                      (steer_value0 throttle_value0 : R) : DbwMpc :=
  {| waypoint_set := waypoint_set0;
     velocity_set := velocity_set0;
     pose_set := pose_set0;
     enabled := false;
     waypoints := Lane_default;
     pose := PoseStamped_default;
     velocity := TwistStamped_default;
     steer_value := steer_value0;
     throttle_value := throttle_value0 |}.

(** *** The subscriber callbacks *)

Definition onEnabled (isEnabled : bool) (s : DbwMpc) : DbwMpc :=
  {| waypoint_set := waypoint_set s;
     velocity_set := velocity_set s;
     pose_set := pose_set s;
     enabled := isEnabled;
     waypoints := waypoints s;
     pose := pose s;
     velocity := velocity s;
     steer_value := steer_value s;
     throttle_value := throttle_value s |}.

Definition onWaypoints (newWaypoints : Lane) (s : DbwMpc) : DbwMpc :=
  {| waypoint_set := true;
     velocity_set := velocity_set s;
     pose_set := pose_set s;
     enabled := enabled s;
     waypoints := newWaypoints;
     pose := pose s;
     velocity := velocity s;
     steer_value := steer_value s;
     throttle_value := throttle_value s |}.

Definition onPose (newPose : PoseStamped) (s : DbwMpc) : DbwMpc :=
  {| waypoint_set := waypoint_set s;
     velocity_set := velocity_set s;
     pose_set := true;
     enabled := enabled s;
     waypoints := waypoints s;
     pose := newPose;
     velocity := velocity s;
     steer_value := steer_value s;
     throttle_value := throttle_value s |}.

Definition onVelocity (newVelocity : TwistStamped) (s : DbwMpc) : DbwMpc :=
  {| waypoint_set := waypoint_set s;
     velocity_set := true;
     pose_set := pose_set s;
     enabled := enabled s;
     waypoints := waypoints s;
     pose := pose s;
     velocity := newVelocity;
     steer_value := steer_value s;
     throttle_value := throttle_value s |}.

(** *** [run] *)

(** One subscription delivers one message to its callback. *)
Definition deliver (s : DbwMpc) (m : message) : DbwMpc :=
  match m with
  | OnEnabled b => onEnabled b s
  | OnWaypoints l => onWaypoints l s
  | OnPose p => onPose p s
  | OnVelocity t => onVelocity t s
  end.

(** [ros::spinOnce()]: the callbacks of the messages that are pending,
    one after the other. *)
Definition spinOnce (pending : list message) (s : DbwMpc) : DbwMpc :=
  fold_left deliver pending s.

(** The condition of the [if] in the loop of [run]. *)
Definition active (s : DbwMpc) : bool :=
  enabled s && velocity_set s && waypoint_set s && pose_set s.

(** The body of that [if]: the messages published, in order. *)
Definition dispatch (steer_value throttle_value : R) : list command :=
  SteeringCmd true steer_value ::
  (if Rlt_dec 0 throttle_value
   then [ThrottleCmd true ThrottleCmd_CMD_PERCENT throttle_value]
   else [BrakeCmd true BrakeCmd_CMD_TORQUE throttle_value]).

(** One turn of [while (ros::ok())]: [spinOnce], then the guarded
    publishing ([loop_rate.sleep()] changes nothing of the state). *)
Definition loop_body (pending : list message) (s : DbwMpc) : DbwMpc * list command :=
  let s' := spinOnce pending s in
  (s', if active s' then dispatch (steer_value s') (throttle_value s') else []).

(** The loop of [run] for as many turns as [turns] is long; turn [k]
    finds the messages [nth k turns] pending.  The result is the state
    reached and what each turn published. *)
Fixpoint run_loop (turns : list (list message)) (s : DbwMpc)
  : DbwMpc * list (list command) :=
  match turns with
  | [] => (s, [])
  | pending :: later =>
      let '(s', out) := loop_body pending s in
      let '(s'', outs) := run_loop later s' in
      (s'', out :: outs)
  end.

(** ** [calculate] *)

Definition size_t_of (z : Z) : Z := (z mod 2 ^ 64)%Z.

(** The values [from], [from+1], ... below [to]: the indices a loop
    [for (i = from; i < to; i++)] visits. *)
Definition range (from to : Z) : list Z :=
  map (fun k => (from + Z.of_nat k)%Z) (seq 0 (Z.to_nat (to - from))).

(** Lines 123-126: the loop that fills [ptsx] and [ptsy]. *)
Fixpoint window_loop (wps : list Waypoint) (idxs : list Z) (ptsx ptsy : list R)
  : outcome (list R * list R) :=
  match idxs with
  | [] => Done (ptsx, ptsy)
  | i :: rest =>
      w <- vector_at wps (Z.to_nat i) ;;
      window_loop wps rest
        (ptsx ++ [pt_x (position (ps_pose (wp_pose w)))])
        (ptsy ++ [pt_y (position (ps_pose (wp_pose w)))])
  end.

Definition window (wps : list Waypoint) (closestWaypointIdx : Z)
  : outcome (list R * list R) :=
  window_loop wps (range closestWaypointIdx (size_t_of (closestWaypointIdx + 3))) [] [].

(** Lines 132-140: the loop that fills [xs] and [ys]. *)
Fixpoint to_local_loop (ptsx ptsy : list R) (px py psi : R) (idxs : list nat)
                       (xs ys : list R) : outcome (list R * list R) :=
  match idxs with
  | [] => Done (xs, ys)
  | i :: rest =>
      gx <- vector_at ptsx i ;;
      gy <- vector_at ptsy i ;;
      let dx := gx - px in
      let dy := gy - py in
      to_local_loop ptsx ptsy px py psi rest
        (xs ++ [dx * cos (- psi) - dy * sin (- psi)])
        (ys ++ [dx * sin (- psi) + dy * cos (- psi)])
  end.

Definition to_local (ptsx ptsy : list R) (px py psi : R) : outcome (list R * list R) :=
  to_local_loop ptsx ptsy px py psi (seq 0 (length ptsx)) [] [].

(** Lines 142-147: [Eigen::Map<Eigen::VectorXd> m(&buf[0], size)] handed
    by value to [polyfit], which copies [size] doubles starting at the
    first element of [buf]. *)
Definition Eigen_Map (buf : list R) (size : nat) : outcome (list R) :=
  if (size <=? length buf)%nat then Done (firstn size buf) else OutOfBounds.

(** Lines 148-149. *)
Definition estimate_errors (coeffs : list R) : outcome (R * R) :=
  let cte := polyeval coeffs 0 in
  c1 <- eigen_at coeffs 1 ;;
  Done (cte, - atan c1).

(** Lines 151-161: the six entries of [state]. *)
Definition compensate_latency (steer_value throttle_value v cte epsi : R) : list R :=
  let delta := - steer_value in
  let psi := delta in
  let px := v * cos psi * latency in
  let py := v * sin psi * latency in
  let cte := cte + v * sin epsi * latency in
  let epsi := epsi + v * delta * latency / Lf in
  let psi := psi + v * delta * latency / Lf in
  let v := v + throttle_value * latency in
  [px; py; psi; v; cte; epsi].

(** Lines 163-164. *)
Definition store_command (vars : list R) (s : DbwMpc) : outcome DbwMpc :=
  v0 <- vector_at vars 0 ;;
  v1 <- vector_at vars 1 ;;
  Done {| waypoint_set := waypoint_set s;
          velocity_set := velocity_set s;
          pose_set := pose_set s;
          enabled := enabled s;
          waypoints := waypoints s;
          pose := pose s;
          velocity := velocity s;
          steer_value := v0;
          throttle_value := v1 |}.

Section Pipeline.

(** [getClosestWaypoint] of libwaypoint_follower.h, an [int]. *)
Variable getClosestWaypoint : Lane -> Pose -> Z.
(** [MPC::Solve] of MPC.h. *)
Variable Solve : list R -> list R -> list R.
Variable householderQr_solve : list (list R) -> list R -> list R.

Definition calculate (s : DbwMpc) : outcome DbwMpc :=
  let psi := q_z (orientation (ps_pose (pose s))) in
  let closestWaypointIdx :=
    size_t_of (getClosestWaypoint (waypoints s) (ps_pose (pose s))) in
  '(ptsx, ptsy) <- window (lane_waypoints (waypoints s)) closestWaypointIdx ;;
  let px := pt_x (position (ps_pose (pose s))) in
  let py := pt_y (position (ps_pose (pose s))) in
  let v := v3_x (linear (ts_twist (velocity s))) in
  '(xs, ys) <- to_local ptsx ptsy px py psi ;;
  waypoints_x_eig <- Eigen_Map xs 6 ;;
  waypoints_y_eig <- Eigen_Map ys 6 ;;
  coeffs <- polyfit householderQr_solve waypoints_x_eig waypoints_y_eig 3 ;;
  '(cte, epsi) <- estimate_errors coeffs ;;
  let state := compensate_latency (steer_value s) (throttle_value s) v cte epsi in
  let vars := Solve state coeffs in
  store_command vars s.

End Pipeline.

(** ** Notions the properties are stated with *)

(** The image of the global point [(gx, gy)] in the frame of a vehicle
    at [(px, py)] with heading [psi], as the body of the loop of lines
    135-140 computes it. *)
Definition local_x (px py psi gx gy : R) : R :=
  (gx - px) * cos (- psi) - (gy - py) * sin (- psi).

Definition local_y (px py psi gx gy : R) : R :=
  (gx - px) * sin (- psi) + (gy - py) * cos (- psi).

(** The Euclidean distance of [(x1, y1)] and [(x2, y2)]. *)
Definition distance (x1 y1 x2 y2 : R) : R :=
  sqrt ((x1 - x2) * (x1 - x2) + (y1 - y2) * (y1 - y2)).

(** Example data: waypoints on the x axis, the vehicle at the origin
    with heading 0. *)
Definition waypoint_at (x y : R) : Waypoint :=
  {| wp_pose := {| ps_pose := {| position := {| pt_x := x; pt_y := y; pt_z := 0 |};
                                 orientation := {| q_x := 0; q_y := 0; q_z := 0; q_w := 0 |} |} |};
     wp_twist := TwistStamped_default |}.

Definition three_waypoints : Lane :=
  {| lane_waypoints := [waypoint_at 1 0; waypoint_at 2 0; waypoint_at 3 0] |}.

Definition on_three_waypoints : DbwMpc :=
  onEnabled true (onWaypoints three_waypoints (DbwMpc_new false true true 0 0)).

(** The value of the polynomial with coefficients [coeffs], lowest
    order first, by Horner's rule. *)
Definition horner (coeffs : list R) (x : R) : R :=
  fold_right (fun c acc => c + x * acc) 0 coeffs.

(** The product of one row of a matrix with a column vector. *)
Fixpoint dot (row col : list R) : R :=
  match row, col with
  | a :: row', c :: col' => a * c + dot row' col'
  | _, _ => 0
  end.

(** The global point whose local coordinates are [(lx, ly)] for a
    vehicle at [(px, py)] with heading [psi]. *)
Definition global_x (px psi lx ly : R) : R := px + lx * cos psi - ly * sin psi.
Definition global_y (py psi lx ly : R) : R := py + lx * sin psi + ly * cos psi.

(** The coordinates of entry [i] of a waypoint vector. *)
Definition waypoint_x (wps : list Waypoint) (i : Z) : R :=
  pt_x (position (ps_pose (wp_pose (nth (Z.to_nat i) wps (waypoint_at 0 0))))).
Definition waypoint_y (wps : list Waypoint) (i : Z) : R :=
  pt_y (position (ps_pose (wp_pose (nth (Z.to_nat i) wps (waypoint_at 0 0))))).

(** The channel of a message. *)
Definition same_channel (m m' : message) : bool :=
  match m, m' with
  | OnEnabled _, OnEnabled _ => true
  | OnWaypoints _, OnWaypoints _ => true
  | OnPose _, OnPose _ => true
  | OnVelocity _, OnVelocity _ => true
  | _, _ => false
  end.
Definition is_OnWaypoints (m : message) : bool :=
  match m with OnWaypoints _ => true | _ => false end.
Definition is_OnPose (m : message) : bool :=
  match m with OnPose _ => true | _ => false end.
Definition is_OnVelocity (m : message) : bool :=
  match m with OnVelocity _ => true | _ => false end.


(** * Properties *)

(** ** The error monad and the vector reads *)

Lemma vector_at_Done {A : Type} (v : list A) (i : nat) (d : A) :
  (i < length v)%nat -> vector_at v i = Done (nth i v d).
Proof.
  intros Hi. unfold vector_at.
  rewrite (nth_error_nth' v d Hi). reflexivity.
Qed.

Lemma vector_at_OutOfBounds {A : Type} (v : list A) (i : nat) :
  (length v <= i)%nat -> vector_at v i = OutOfBounds.
Proof.
  intros Hi. unfold vector_at.
  apply nth_error_None in Hi. rewrite Hi. reflexivity.
Qed.

Lemma vector_at_not_AssertionFailure {A : Type} (v : list A) (i : nat) :
  vector_at v i <> AssertionFailure.
Proof.
  unfold vector_at. destruct (nth_error v i); discriminate.
Qed.

Lemma eigen_at_Done (v : list R) (i : nat) :
  (i < length v)%nat -> eigen_at v i = Done (nth i v 0).
Proof.
  intros Hi. unfold eigen_at.
  rewrite (nth_error_nth' v 0 Hi). reflexivity.
Qed.

(** ** [polyeval] at the origin *)

(** Past index 0 every term of the sum has the factor [0 ^ (S i) = 0]. *)
Lemma polyeval_loop_origin (coeffs : list R) (i : nat) (result : R) :
  polyeval_loop coeffs 0 (S i) result = result.
Proof.
  revert i result.
  induction coeffs as [|c rest IH]; intros i result; simpl.
  - reflexivity.
  - rewrite IH. ring.
Qed.

Lemma polyeval_origin (c0 : R) (rest : list R) :
  polyeval (c0 :: rest) 0 = c0.
Proof.
  unfold polyeval. simpl.
  rewrite polyeval_loop_origin. ring.
Qed.

(** C8: for a coefficient vector with at least two entries, the
    cross-track error [polyeval coeffs 0] is the coefficient of degree 0,
    and [estimate_errors] returns it together with the heading error
    [- atan coeffs[1]]. *)
Theorem estimate_errors_cte_epsi (coeffs : list R) :
  (2 <= length coeffs)%nat ->
  polyeval coeffs 0 = nth 0 coeffs 0 /\
  estimate_errors coeffs = Done (nth 0 coeffs 0, - atan (nth 1 coeffs 0)).
Proof.
  intros Hlen.
  destruct coeffs as [|c0 [|c1 rest]]; simpl in Hlen; try lia.
  split.
  - apply polyeval_origin.
  - unfold estimate_errors. rewrite polyeval_origin. reflexivity.
Qed.

Lemma estimate_errors_cte_epsi_witness :
  polyeval [5; 1; 2; 3] 0 = nth 0 [5; 1; 2; 3] 0 /\
  estimate_errors [5; 1; 2; 3] = Done (nth 0 [5; 1; 2; 3] 0, - atan (nth 1 [5; 1; 2; 3] 0)).
Proof.
  apply (estimate_errors_cte_epsi [5; 1; 2; 3]). simpl. lia.
Defined.

(** ** The frame transformation *)

Lemma to_local_loop_Done (ptsx ptsy : list R) (px py psi : R) (idxs : list nat) :
  Forall (fun i => (i < length ptsx)%nat /\ (i < length ptsy)%nat) idxs ->
  forall xs ys,
    to_local_loop ptsx ptsy px py psi idxs xs ys =
    Done (xs ++ map (fun i => local_x px py psi (nth i ptsx 0) (nth i ptsy 0)) idxs,
          ys ++ map (fun i => local_y px py psi (nth i ptsx 0) (nth i ptsy 0)) idxs).
Proof.
  induction 1 as [|i rest [Hx Hy] _ IH]; intros xs ys; simpl.
  - rewrite !app_nil_r. reflexivity.
  - rewrite (vector_at_Done ptsx i 0 Hx), (vector_at_Done ptsy i 0 Hy). simpl.
    rewrite IH, <- !app_assoc. reflexivity.
Qed.

Lemma to_local_Done (ptsx ptsy : list R) (px py psi : R) :
  length ptsx = length ptsy ->
  to_local ptsx ptsy px py psi =
  Done (map (fun i => local_x px py psi (nth i ptsx 0) (nth i ptsy 0)) (seq 0 (length ptsx)),
        map (fun i => local_y px py psi (nth i ptsx 0) (nth i ptsy 0)) (seq 0 (length ptsx))).
Proof.
  intros Hlen. unfold to_local.
  rewrite to_local_loop_Done; [reflexivity|].
  apply Forall_forall. intros i Hi. apply in_seq in Hi. lia.
Qed.

Lemma nth_map_seq (f : nat -> R) (n i : nat) :
  (i < n)%nat -> nth i (map f (seq 0 n)) 0 = f i.
Proof.
  intros Hi.
  rewrite (nth_indep _ 0 (f 0%nat)) by (rewrite length_map, length_seq; exact Hi).
  rewrite map_nth, seq_nth by exact Hi. reflexivity.
Qed.

(** A rotation keeps the distance of two points. *)
Lemma local_distance (px py psi gx1 gy1 gx2 gy2 : R) :
  distance (local_x px py psi gx1 gy1) (local_y px py psi gx1 gy1)
           (local_x px py psi gx2 gy2) (local_y px py psi gx2 gy2) =
  distance gx1 gy1 gx2 gy2.
Proof.
  unfold distance, local_x, local_y. f_equal.
  pose proof (sin2_cos2 (- psi)) as H. unfold Rsqr in H.
  transitivity (((gx1 - gx2) * (gx1 - gx2) + (gy1 - gy2) * (gy1 - gy2)) *
                (sin (- psi) * sin (- psi) + cos (- psi) * cos (- psi))).
  - ring.
  - rewrite H. ring.
Qed.

(** C9: on parallel coordinate vectors of one length, [to_local] returns
    vectors of that same length, entry [i] being the rotation by [- psi]
    of the offset of point [i] from [(px, py)]; and the distance of any
    two of the local points is the distance of the two global points. *)
Theorem to_local_rigid (ptsx ptsy : list R) (px py psi : R) :
  length ptsx = length ptsy ->
  exists xs ys,
    to_local ptsx ptsy px py psi = Done (xs, ys) /\
    length xs = length ptsx /\ length ys = length ptsx /\
    (forall i, (i < length ptsx)%nat ->
       nth i xs 0 = (nth i ptsx 0 - px) * cos (- psi) - (nth i ptsy 0 - py) * sin (- psi) /\
       nth i ys 0 = (nth i ptsx 0 - px) * sin (- psi) + (nth i ptsy 0 - py) * cos (- psi)) /\
    (forall i j, (i < length ptsx)%nat -> (j < length ptsx)%nat ->
       distance (nth i xs 0) (nth i ys 0) (nth j xs 0) (nth j ys 0) =
       distance (nth i ptsx 0) (nth i ptsy 0) (nth j ptsx 0) (nth j ptsy 0)).
Proof.
  intros Hlen.
  eexists. eexists. split; [apply to_local_Done; exact Hlen|].
  repeat split.
  - rewrite length_map, length_seq. reflexivity.
  - rewrite length_map, length_seq. reflexivity.
  - rewrite nth_map_seq by assumption. reflexivity.
  - rewrite nth_map_seq by assumption. reflexivity.
  - intros i j Hi Hj. rewrite !nth_map_seq by assumption.
    apply local_distance.
Qed.

Lemma to_local_rigid_witness :
  exists xs ys,
    to_local [1; 2; 3] [0; 0; 0] 0 0 0 = Done (xs, ys) /\
    length xs = length [1; 2; 3] /\ length ys = length [1; 2; 3] /\
    (forall i, (i < length [1; 2; 3])%nat ->
       nth i xs 0 = (nth i [1; 2; 3] 0 - 0) * cos (- 0) - (nth i [0; 0; 0] 0 - 0) * sin (- 0) /\
       nth i ys 0 = (nth i [1; 2; 3] 0 - 0) * sin (- 0) + (nth i [0; 0; 0] 0 - 0) * cos (- 0)) /\
    (forall i j, (i < length [1; 2; 3])%nat -> (j < length [1; 2; 3])%nat ->
       distance (nth i xs 0) (nth i ys 0) (nth j xs 0) (nth j ys 0) =
       distance (nth i [1; 2; 3] 0) (nth i [0; 0; 0] 0) (nth j [1; 2; 3] 0) (nth j [0; 0; 0] 0)).
Proof.
  apply (to_local_rigid [1; 2; 3] [0; 0; 0] 0 0 0). reflexivity.
Defined.

(** ** The latency compensation *)

(** C6, as the claim states it, with [delta] the steering angle of the
    last command: false for the steering angle 1 at speed 1, where the
    code projects with [delta = - 1]. *)
Lemma compensate_latency_not_last_steering :
  compensate_latency 1 0 1 0 0 <>
  [1 * cos 1 * latency; 1 * sin 1 * latency; 1 + 1 * 1 * latency / Lf;
   1 + 0 * latency; 0 + 1 * sin 0 * latency; 0 + 1 * 1 * latency / Lf].
Proof.
  intro H.
  apply (f_equal (fun state => nth 5 state 0)) in H.
  simpl in H. unfold latency, Lf in H. lra.
Qed.

(** C6, amended: with [delta] the NEGATED steering angle of the last
    command, window [1/10] and wheelbase [267/100], the state handed to
    the optimizer is
    [v cos(delta) L; v sin(delta) L; delta + v delta L / Lf; v + throttle L;
     cte + v sin(epsi) L; epsi + v delta L / Lf];
    with steering 0 and throttle 0 it is [v L; 0; 0; v; cte + v sin(epsi) L; epsi]. *)
Theorem compensate_latency_bicycle (steer throttle v cte epsi : R) :
  compensate_latency steer throttle v cte epsi =
  [v * cos (- steer) * (1 / 10);
   v * sin (- steer) * (1 / 10);
   - steer + v * (- steer) * (1 / 10) / (267 / 100);
   v + throttle * (1 / 10);
   cte + v * sin epsi * (1 / 10);
   epsi + v * (- steer) * (1 / 10) / (267 / 100)] /\
  compensate_latency 0 0 v cte epsi =
  [v * (1 / 10); 0; 0; v; cte + v * sin epsi * (1 / 10); epsi].
Proof.
  split; [reflexivity|].
  unfold compensate_latency, latency, Lf.
  rewrite Ropp_0, cos_0, sin_0.
  repeat (f_equal; try lra).
Qed.

(** ** The guard of [polyfit] *)

Lemma polyfit_pre_spec (xvals yvals : list R) (order : Z) :
  polyfit_pre xvals yvals order = true <->
  length xvals = length yvals /\ (1 <= order <= Z.of_nat (length xvals) - 1)%Z.
Proof.
  unfold polyfit_pre.
  rewrite !andb_true_iff, Z.eqb_eq, !Z.leb_le. lia.
Qed.

(** C7, as the claim states it: false for four samples and degree 3,
    where [3 >= 4 - 1] and the fit is solved. *)
Lemma polyfit_accepts_degree_n_minus_1 :
  (3 >= Z.of_nat (length [0; 1; 2; 3]) - 1)%Z /\
  polyfit (fun _ yvals => yvals) [0; 1; 2; 3] [0; 1; 4; 9] 3 <> AssertionFailure.
Proof.
  split; [simpl; lia|].
  unfold polyfit. simpl. discriminate.
Qed.

(** C7, amended: the fit is rejected, by a failed assertion, exactly when
    the two vectors differ in length, or the degree is below 1, or the
    degree exceeds the number of samples minus one; in every other case,
    the degree [n - 1] among them, it is solved and returns what the QR
    solve returns on the design matrix. *)
Theorem polyfit_rejects_iff
  (solve : list (list R) -> list R -> list R) (xvals yvals : list R) (order : Z) :
  (polyfit solve xvals yvals order = AssertionFailure <->
   length xvals <> length yvals \/ (order < 1)%Z \/
   (order > Z.of_nat (length xvals) - 1)%Z) /\
  (polyfit solve xvals yvals order <> AssertionFailure <->
   polyfit solve xvals yvals order =
   Done (solve (design_matrix xvals (Z.to_nat order)) yvals)).
Proof.
  unfold polyfit.
  destruct (polyfit_pre xvals yvals order) eqn:Hpre.
  - apply polyfit_pre_spec in Hpre. destruct Hpre as [Hlen Hord].
    repeat split; try discriminate; try reflexivity.
    intros [H | [H | H]]; [contradiction | lia | lia].
  - assert (Hn : ~ (length xvals = length yvals /\
                    (1 <= order <= Z.of_nat (length xvals) - 1)%Z)).
    { intro H. apply polyfit_pre_spec in H. congruence. }
    repeat split; try discriminate; try reflexivity.
    + intros _.
      destruct (Nat.eq_dec (length xvals) (length yvals)) as [Heq | Hne];
        [right; lia | left; exact Hne].
    + intro H. contradiction H. reflexivity.
Qed.

(** ** The callbacks *)

(** C10: each callback writes the stored value and the flag of its own
    channel and nothing else; the other channels' values and flags and
    the two stored command values are those of the state before. *)
Theorem callbacks_frame (s : DbwMpc) (b : bool) (l : Lane)
                        (p : PoseStamped) (t : TwistStamped) :
  (let s' := deliver s (OnEnabled b) in
   enabled s' = b /\
   waypoints s' = waypoints s /\ waypoint_set s' = waypoint_set s /\
   pose s' = pose s /\ pose_set s' = pose_set s /\
   velocity s' = velocity s /\ velocity_set s' = velocity_set s /\
   steer_value s' = steer_value s /\ throttle_value s' = throttle_value s) /\
  (let s' := deliver s (OnWaypoints l) in
   waypoints s' = l /\ waypoint_set s' = true /\
   enabled s' = enabled s /\
   pose s' = pose s /\ pose_set s' = pose_set s /\
   velocity s' = velocity s /\ velocity_set s' = velocity_set s /\
   steer_value s' = steer_value s /\ throttle_value s' = throttle_value s) /\
  (let s' := deliver s (OnPose p) in
   pose s' = p /\ pose_set s' = true /\
   enabled s' = enabled s /\
   waypoints s' = waypoints s /\ waypoint_set s' = waypoint_set s /\
   velocity s' = velocity s /\ velocity_set s' = velocity_set s /\
   steer_value s' = steer_value s /\ throttle_value s' = throttle_value s) /\
  (let s' := deliver s (OnVelocity t) in
   velocity s' = t /\ velocity_set s' = true /\
   enabled s' = enabled s /\
   waypoints s' = waypoints s /\ waypoint_set s' = waypoint_set s /\
   pose s' = pose s /\ pose_set s' = pose_set s /\
   steer_value s' = steer_value s /\ throttle_value s' = throttle_value s).
Proof.
  repeat split.
Qed.

(** ** The loop of [run] *)

Lemma deliver_keeps_command (s : DbwMpc) (m : message) :
  steer_value (deliver s m) = steer_value s /\
  throttle_value (deliver s m) = throttle_value s.
Proof.
  destruct m; split; reflexivity.
Qed.

Lemma spinOnce_keeps_command (pending : list message) (s : DbwMpc) :
  steer_value (spinOnce pending s) = steer_value s /\
  throttle_value (spinOnce pending s) = throttle_value s.
Proof.
  unfold spinOnce. revert s.
  induction pending as [|m rest IH]; intros s; simpl.
  - split; reflexivity.
  - destruct (IH (deliver s m)) as [Hs Ht].
    destruct (deliver_keeps_command s m) as [Hs' Ht'].
    split; congruence.
Qed.

Lemma loop_body_keeps_command (pending : list message) (s : DbwMpc) :
  steer_value (fst (loop_body pending s)) = steer_value s /\
  throttle_value (fst (loop_body pending s)) = throttle_value s.
Proof.
  unfold loop_body. simpl. apply spinOnce_keeps_command.
Qed.

(** A turn outside the Active state publishes nothing. *)
Lemma idle_turn_publishes_nothing (pending : list message) (s : DbwMpc) :
  active (spinOnce pending s) = false -> snd (loop_body pending s) = [].
Proof.
  intros H. unfold loop_body. simpl. rewrite H. reflexivity.
Qed.

Lemma loop_body_published (pending : list message) (s : DbwMpc) :
  snd (loop_body pending s) = [] \/
  snd (loop_body pending s) = dispatch (steer_value s) (throttle_value s).
Proof.
  unfold loop_body. simpl.
  destruct (spinOnce_keeps_command pending s) as [Hs Ht].
  destruct (active (spinOnce pending s)).
  - right. rewrite Hs, Ht. reflexivity.
  - left. reflexivity.
Qed.

(** C1: the loop of [run] contains no call of [calculate].  Whatever
    messages arrive, for however many turns, the two stored command values
    stay those the loop started with, and every turn publishes either
    nothing or the commands built from those two starting values: no
    published value is computed by the optimizer during the turn. *)
Theorem run_loop_never_updates_command (turns : list (list message)) (s : DbwMpc) :
  steer_value (fst (run_loop turns s)) = steer_value s /\
  throttle_value (fst (run_loop turns s)) = throttle_value s /\
  Forall (fun out => out = [] \/ out = dispatch (steer_value s) (throttle_value s))
         (snd (run_loop turns s)).
Proof.
  revert s.
  induction turns as [|pending later IH]; intros s; cbn [run_loop].
  - repeat split. constructor.
  - pose proof (loop_body_keeps_command pending s) as [Hs Ht].
    pose proof (loop_body_published pending s) as Hout.
    destruct (loop_body pending s) as [s' out]. cbn [fst snd] in Hs, Ht, Hout.
    specialize (IH s'). destruct (run_loop later s') as [s'' outs].
    cbn [fst snd] in *. destruct IH as (IHs & IHt & IHo).
    repeat split; try congruence.
    constructor; [exact Hout|].
    rewrite <- Hs, <- Ht. exact IHo.
Qed.

(** C4, as the claim states it, with the brake carrying the absolute
    value: false for the actuation value [-1], which is published as it
    is. *)
Lemma dispatch_brake_not_magnitude :
  dispatch 0 (-1) <>
  [SteeringCmd true 0; BrakeCmd true BrakeCmd_CMD_TORQUE (Rabs (-1))].
Proof.
  unfold dispatch.
  destruct (Rlt_dec 0 (-1)) as [H | _]; [lra|].
  intro H. injection H as H.
  rewrite Rabs_left in H by lra. lra.
Qed.

(** C4, amended: once [calculate]'s last two lines have stored a control
    vector [vars], a turn that finds the node Active publishes the
    steering command carrying [vars[0]] and exactly one more command:
    the throttle command (percent type) carrying [vars[1]] when
    [vars[1] > 0], and otherwise the brake command (torque type) carrying
    [vars[1]] itself, with its sign. *)
Theorem active_turn_publishes
  (vars : list R) (s0 s : DbwMpc) (pending : list message) :
  store_command vars s0 = Done s ->
  active (spinOnce pending s) = true ->
  exists actuation,
    snd (loop_body pending s) = [SteeringCmd true (nth 0 vars 0); actuation] /\
    (0 < nth 1 vars 0 ->
     actuation = ThrottleCmd true ThrottleCmd_CMD_PERCENT (nth 1 vars 0)) /\
    (nth 1 vars 0 <= 0 ->
     actuation = BrakeCmd true BrakeCmd_CMD_TORQUE (nth 1 vars 0)).
Proof.
  intros Hstore Hactive.
  destruct vars as [|v0 [|v1 rest]]; try discriminate.
  unfold store_command in Hstore. simpl in Hstore.
  injection Hstore as Hs.
  assert (Hsv : steer_value s = v0) by (rewrite <- Hs; reflexivity).
  assert (Htv : throttle_value s = v1) by (rewrite <- Hs; reflexivity).
  destruct (spinOnce_keeps_command pending s) as [Hs' Ht'].
  unfold loop_body. simpl. rewrite Hactive, Hs', Ht', Hsv, Htv.
  unfold dispatch.
  destruct (Rlt_dec 0 v1) as [Hpos | Hneg]; eexists; (split; [reflexivity|]);
    split; intros H; try reflexivity; lra.
Qed.

Lemma active_turn_publishes_witness :
  exists actuation,
    snd (loop_body [OnEnabled true]
           {| waypoint_set := true; velocity_set := true; pose_set := true;
              enabled := false; waypoints := Lane_default;
              pose := PoseStamped_default; velocity := TwistStamped_default;
              steer_value := 1 / 4; throttle_value := -1 |}) =
    [SteeringCmd true (nth 0 [1 / 4; -1] 0); actuation] /\
    (0 < nth 1 [1 / 4; -1] 0 ->
     actuation = ThrottleCmd true ThrottleCmd_CMD_PERCENT (nth 1 [1 / 4; -1] 0)) /\
    (nth 1 [1 / 4; -1] 0 <= 0 ->
     actuation = BrakeCmd true BrakeCmd_CMD_TORQUE (nth 1 [1 / 4; -1] 0)).
Proof.
  apply (active_turn_publishes [1 / 4; -1] (DbwMpc_new true true true 0 0)).
  - reflexivity.
  - reflexivity.
Defined.

(** C5: the constructor initialises [enabled] and leaves the three other
    flags as the storage held them.  On storage that held a set bit in
    each of them, a single enable message starts the publishing: commands
    go out although no waypoints, no pose and no velocity message was
    ever received. *)
Theorem uninitialised_flags_publish :
  let s := DbwMpc_new true true true 0 0 in
  waypoint_set s = true /\ velocity_set s = true /\ pose_set s = true /\
  enabled s = false /\
  snd (run_loop [[OnEnabled true]] s) =
  [[SteeringCmd true 0; BrakeCmd true BrakeCmd_CMD_TORQUE 0]].
Proof.
  simpl. repeat split.
  unfold loop_body. simpl. unfold dispatch.
  destruct (Rlt_dec 0 0) as [H | _]; [lra | reflexivity].
Qed.

(** ** The waypoint window *)

Lemma size_t_of_range (z : Z) : (0 <= size_t_of z < 2 ^ 64)%Z.
Proof.
  unfold size_t_of. apply Z.mod_pos_bound. reflexivity.
Qed.

Lemma size_t_of_small (z : Z) : (0 <= z < 2 ^ 64)%Z -> size_t_of z = z.
Proof.
  intros H. unfold size_t_of. apply Z.mod_small. exact H.
Qed.

Lemma length_range (from to : Z) : length (range from to) = Z.to_nat (to - from).
Proof.
  unfold range. rewrite length_map, length_seq. reflexivity.
Qed.

(** The loop bound [closestWaypointIdx + 3] is computed in [size_t]: the
    loop makes three turns, or none when the sum wraps around. *)
Lemma length_window_range (c : Z) :
  (0 <= c < 2 ^ 64)%Z ->
  (length (range c (size_t_of (c + 3))) <= 3)%nat.
Proof.
  intros Hc. rewrite length_range.
  destruct (Z_lt_le_dec (c + 3) (2 ^ 64)) as [Hsmall | Hwrap].
  - rewrite size_t_of_small by lia. lia.
  - assert (Hb : size_t_of (c + 3) = (c + 3 - 2 ^ 64)%Z).
    { unfold size_t_of. symmetry. apply (Z.mod_unique _ _ 1); lia. }
    rewrite Hb. lia.
Qed.

Lemma window_range_in_bounds (c : Z) :
  (0 <= c)%Z -> (c + 3 < 2 ^ 64)%Z ->
  range c (size_t_of (c + 3)) = [c; c + 1; c + 2]%Z.
Proof.
  intros H0 H3. rewrite size_t_of_small by lia.
  unfold range. replace (c + 3 - c)%Z with 3%Z by lia.
  simpl. rewrite Z.add_0_r. reflexivity.
Qed.

Lemma window_loop_length (wps : list Waypoint) (idxs : list Z) :
  forall ptsx ptsy ptsx' ptsy',
    window_loop wps idxs ptsx ptsy = Done (ptsx', ptsy') ->
    length ptsx' = (length ptsx + length idxs)%nat /\
    length ptsy' = (length ptsy + length idxs)%nat.
Proof.
  induction idxs as [|i rest IH]; intros ptsx ptsy ptsx' ptsy' H; simpl in H.
  - injection H as <- <-. simpl. lia.
  - destruct (vector_at wps (Z.to_nat i)) as [w| |]; simpl in H; try discriminate.
    apply IH in H. rewrite !length_app in H. simpl in *. lia.
Qed.

Lemma window_loop_not_AssertionFailure (wps : list Waypoint) (idxs : list Z) :
  forall ptsx ptsy, window_loop wps idxs ptsx ptsy <> AssertionFailure.
Proof.
  induction idxs as [|i rest IH]; intros ptsx ptsy; simpl.
  - discriminate.
  - pose proof (@vector_at_not_AssertionFailure _ wps (Z.to_nat i)) as Hv.
    destruct (vector_at wps (Z.to_nat i)) as [w| |]; simpl.
    + apply IH.
    + contradiction.
    + discriminate.
Qed.

(** One index outside the vector is enough for the loop to leave it. *)
Lemma window_loop_OutOfBounds (wps : list Waypoint) (idxs : list Z) :
  Exists (fun i => (length wps <= Z.to_nat i)%nat) idxs ->
  forall ptsx ptsy, window_loop wps idxs ptsx ptsy = OutOfBounds.
Proof.
  induction idxs as [|i rest IH]; intros Hex ptsx ptsy.
  - inversion Hex.
  - simpl.
    pose proof (@vector_at_not_AssertionFailure _ wps (Z.to_nat i)) as Hna.
    destruct (vector_at wps (Z.to_nat i)) as [w| |] eqn:Hv; simpl.
    + apply IH. inversion Hex as [? ? Hi | ? ? Hrest]; subst; [|exact Hrest].
      rewrite (vector_at_OutOfBounds wps _ Hi) in Hv. discriminate.
    + contradiction.
    + reflexivity.
Qed.

Lemma window_lengths (wps : list Waypoint) (z : Z) (ptsx ptsy : list R) :
  window wps (size_t_of z) = Done (ptsx, ptsy) ->
  length ptsx = length ptsy /\ (length ptsx <= 3)%nat.
Proof.
  intros H. unfold window in H.
  apply window_loop_length in H. simpl in H. destruct H as [Hx Hy].
  pose proof (length_window_range (size_t_of z) (size_t_of_range z)).
  lia.
Qed.

Lemma Eigen_Map_OutOfBounds (buf : list R) (size : nat) :
  (length buf < size)%nat -> Eigen_Map buf size = OutOfBounds.
Proof.
  intros H. unfold Eigen_Map.
  destruct (Nat.leb_spec size (length buf)); [lia | reflexivity].
Qed.

Section PipelineFacts.

Variable getClosestWaypoint : Lane -> Pose -> Z.
Variable Solve : list R -> list R -> list R.
Variable householderQr_solve : list (list R) -> list R -> list R.

(** No state lets [calculate] reach its end: the window loop leaves the
    waypoints, or the two views leave the local buffers. *)
Lemma calculate_OutOfBounds (s : DbwMpc) :
  calculate getClosestWaypoint Solve householderQr_solve s = OutOfBounds.
Proof.
  unfold calculate.
  destruct (window _ _) as [[ptsx ptsy]| |] eqn:Hw; simpl.
  - apply window_lengths in Hw. destruct Hw as [Hlen H3].
    rewrite (to_local_Done _ _ _ _ _ Hlen). simpl.
    rewrite Eigen_Map_OutOfBounds; [reflexivity|].
    rewrite length_map, length_seq. lia.
  - exfalso. unfold window in Hw.
    exact (window_loop_not_AssertionFailure _ _ _ _ Hw).
  - reflexivity.
Qed.

(** C2: when the index of the nearest waypoint plus 3 exceeds the number
    of waypoints, the window loop has no check to stop it: it reads
    [waypoints.waypoints[i]] at an index that is not in the vector.  The
    outcome is the out-of-bounds access, not a failed assertion. *)
Theorem window_reads_past_end (s : DbwMpc) :
  let wps := lane_waypoints (waypoints s) in
  let c := getClosestWaypoint (waypoints s) (ps_pose (pose s)) in
  (0 <= c)%Z ->
  (Z.of_nat (length wps) < c + 3)%Z ->
  (c + 3 < 2 ^ 64)%Z ->
  window wps (size_t_of c) = OutOfBounds /\
  calculate getClosestWaypoint Solve householderQr_solve s = OutOfBounds /\
  calculate getClosestWaypoint Solve householderQr_solve s <> AssertionFailure.
Proof.
  intros wps c H0 Hn H64.
  split; [|split; [apply calculate_OutOfBounds | rewrite calculate_OutOfBounds; discriminate]].
  rewrite size_t_of_small by lia.
  unfold window. rewrite window_range_in_bounds by lia.
  apply window_loop_OutOfBounds.
  apply Exists_cons_tl, Exists_cons_tl, Exists_cons_hd. lia.
Qed.

(** C3: when the window loop has filled [ptsx] and [ptsy], the frame
    transformation yields local buffers [xs] and [ys] of that same
    length, which is at most 3 and so does not exceed the degree 3,
    while the two views handed to [polyfit] span 6 entries each: reading
    them leaves both buffers. *)
Theorem views_exceed_local_buffers (s : DbwMpc) (ptsx ptsy : list R) :
  window (lane_waypoints (waypoints s))
         (size_t_of (getClosestWaypoint (waypoints s) (ps_pose (pose s)))) =
  Done (ptsx, ptsy) ->
  exists xs ys,
    to_local ptsx ptsy (pt_x (position (ps_pose (pose s))))
             (pt_y (position (ps_pose (pose s))))
             (q_z (orientation (ps_pose (pose s)))) = Done (xs, ys) /\
    length xs = length ptsx /\ length ys = length ptsx /\
    (length xs <= 3)%nat /\
    Eigen_Map xs 6 = OutOfBounds /\ Eigen_Map ys 6 = OutOfBounds /\
    calculate getClosestWaypoint Solve householderQr_solve s = OutOfBounds.
Proof.
  intros Hw. apply window_lengths in Hw. destruct Hw as [Hlen H3].
  eexists. eexists. split; [apply to_local_Done; exact Hlen|].
  rewrite !length_map, !length_seq.
  repeat split; try assumption.
  - apply Eigen_Map_OutOfBounds. rewrite length_map, length_seq. lia.
  - apply Eigen_Map_OutOfBounds. rewrite length_map, length_seq. lia.
  - apply calculate_OutOfBounds.
Qed.

End PipelineFacts.

Lemma window_reads_past_end_witness :
  window (lane_waypoints three_waypoints) (size_t_of 2) = OutOfBounds /\
  calculate (fun _ _ => 2%Z) (fun _ _ => [0; 0]) (fun _ yvals => yvals)
            on_three_waypoints = OutOfBounds /\
  calculate (fun _ _ => 2%Z) (fun _ _ => [0; 0]) (fun _ yvals => yvals)
            on_three_waypoints <> AssertionFailure.
Proof.
  apply (window_reads_past_end (fun _ _ => 2%Z) (fun _ _ => [0; 0])
           (fun _ yvals => yvals) on_three_waypoints); simpl; lia.
Defined.

Lemma views_exceed_local_buffers_witness :
  exists xs ys,
    to_local [1; 2; 3] [0; 0; 0] 0 0 0 = Done (xs, ys) /\
    length xs = 3%nat /\ length ys = 3%nat /\
    (length xs <= 3)%nat /\
    Eigen_Map xs 6 = OutOfBounds /\ Eigen_Map ys 6 = OutOfBounds /\
    calculate (fun _ _ => 0%Z) (fun _ _ => [0; 0]) (fun _ yvals => yvals)
              on_three_waypoints = OutOfBounds.
Proof.
  apply (views_exceed_local_buffers (fun _ _ => 0%Z) (fun _ _ => [0; 0])
           (fun _ yvals => yvals) on_three_waypoints [1; 2; 3] [0; 0; 0]).
  reflexivity.
Defined.

(** * Further properties of the code *)

(** ** [polyeval] as a polynomial *)

Lemma polyeval_loop_horner (coeffs : list R) (x : R) (i : nat) (result : R) :
  polyeval_loop coeffs x i result = result + x ^ i * horner coeffs x.
Proof.
  revert i result.
  induction coeffs as [|c rest IH]; intros i result; simpl.
  - ring.
  - rewrite IH. simpl. ring.
Qed.

Lemma horner_app (p q : list R) (x : R) :
  horner (p ++ q) x = horner p x + x ^ length p * horner q x.
Proof.
  induction p as [|c rest IH]; simpl.
  - ring.
  - fold (horner (rest ++ q) x). fold (horner rest x). rewrite IH. ring.
Qed.

(** X1: the sum of [coeffs[i] * pow(x, i)] that [polyeval] accumulates
    is the value Horner's rule gives, for every coefficient vector (the
    empty one gives 0) and every [x]. *)
Theorem polyeval_horner (coeffs : list R) (x : R) :
  polyeval coeffs x = horner coeffs x.
Proof.
  unfold polyeval. rewrite polyeval_loop_horner. simpl. ring.
Qed.

(** X2: [polyeval] of two coefficient vectors put end to end is the
    value of the first plus [x ^ (size of the first)] times the value of
    the second. *)
Theorem polyeval_app (p q : list R) (x : R) :
  polyeval (p ++ q) x = polyeval p x + x ^ length p * polyeval q x.
Proof.
  unfold polyeval. rewrite !polyeval_loop_horner, horner_app. simpl. ring.
Qed.

(** ** The matrix [polyfit] builds *)

Lemma length_fill_row (a xj : R) (order : nat) :
  length (fill_row a xj order) = S order.
Proof.
  revert a. induction order as [|k IH]; intros a; simpl.
  - reflexivity.
  - rewrite IH. reflexivity.
Qed.

Lemma nth_fill_row (a xj : R) (order i : nat) :
  (i <= order)%nat -> nth i (fill_row a xj order) 0 = a * xj ^ i.
Proof.
  revert a i. induction order as [|k IH]; intros a i Hi.
  - assert (i = 0%nat) by lia. subst. simpl. ring.
  - destruct i as [|i]; simpl.
    + ring.
    + rewrite IH by lia. ring.
Qed.

Lemma dot_fill_row (a xj : R) (order : nat) (coeffs : list R) :
  length coeffs = S order ->
  dot (fill_row a xj order) coeffs = a * horner coeffs xj.
Proof.
  revert a coeffs. induction order as [|k IH]; intros a coeffs Hlen.
  - destruct coeffs as [|c [|? ?]]; try discriminate. simpl. ring.
  - destruct coeffs as [|c rest]; try discriminate.
    simpl in Hlen. injection Hlen as Hlen.
    simpl. rewrite (IH _ _ Hlen). fold (horner rest xj). ring.
Qed.

Lemma nth_map_in_range {A : Type} (f : A -> R) (l : list A) (d : A) (j : nat) :
  (j < length l)%nat -> nth j (map f l) 0 = f (nth j l d).
Proof.
  intros Hj.
  rewrite (nth_indep _ 0 (f d)) by (rewrite length_map; exact Hj).
  apply map_nth.
Qed.

(** X3: when [polyfit] passes its two assertions there are at least two
    samples and at least [order + 1] of them, as many [y] as [x] values,
    and the matrix handed to the QR solve is the Vandermonde matrix of
    the samples: one row per sample, [order + 1] columns, entry [(j, i)]
    equal to [xvals(j) ^ i]; the result is what the solve returns. *)
Theorem polyfit_solves_vandermonde
  (solve : list (list R) -> list R -> list R) (xvals yvals coeffs : list R) (order : Z) :
  polyfit solve xvals yvals order = Done coeffs ->
  (2 <= length xvals)%nat /\ (Z.to_nat order + 1 <= length xvals)%nat /\
  length yvals = length xvals /\
  coeffs = solve (design_matrix xvals (Z.to_nat order)) yvals /\
  length (design_matrix xvals (Z.to_nat order)) = length xvals /\
  (forall j, (j < length xvals)%nat ->
     length (nth j (design_matrix xvals (Z.to_nat order)) []) = S (Z.to_nat order) /\
     forall i, (i <= Z.to_nat order)%nat ->
       nth i (nth j (design_matrix xvals (Z.to_nat order)) []) 0 = nth j xvals 0 ^ i).
Proof.
  unfold polyfit. intros H.
  destruct (polyfit_pre xvals yvals order) eqn:Hpre; try discriminate.
  injection H as H. apply polyfit_pre_spec in Hpre. destruct Hpre as [Hlen Hord].
  repeat split; try lia.
  - symmetry. exact H.
  - unfold design_matrix. apply length_map.
  - unfold design_matrix.
    rewrite (nth_indep _ [] (fill_row 1 0 (Z.to_nat order)))
      by (rewrite length_map; assumption).
    rewrite (map_nth (fun xj => fill_row 1 xj (Z.to_nat order))).
    apply length_fill_row.
  - intros i Hi. unfold design_matrix.
    rewrite (nth_indep _ [] (fill_row 1 0 (Z.to_nat order)))
      by (rewrite length_map; assumption).
    rewrite (map_nth (fun xj => fill_row 1 xj (Z.to_nat order))).
    rewrite nth_fill_row by exact Hi. ring.
Qed.

Lemma polyfit_solves_vandermonde_witness :
  (2 <= length [0; 1; 2; 3])%nat /\ (Z.to_nat 3 + 1 <= length [0; 1; 2; 3])%nat /\
  length [0; 1; 4; 9] = length [0; 1; 2; 3] /\
  [0; 1; 4; 9] = (fun _ yvals => yvals) (design_matrix [0; 1; 2; 3] (Z.to_nat 3)) [0; 1; 4; 9] /\
  length (design_matrix [0; 1; 2; 3] (Z.to_nat 3)) = length [0; 1; 2; 3] /\
  (forall j, (j < length [0; 1; 2; 3])%nat ->
     length (nth j (design_matrix [0; 1; 2; 3] (Z.to_nat 3)) []) = S (Z.to_nat 3) /\
     forall i, (i <= Z.to_nat 3)%nat ->
       nth i (nth j (design_matrix [0; 1; 2; 3] (Z.to_nat 3)) []) 0 = nth j [0; 1; 2; 3] 0 ^ i).
Proof.
  apply (polyfit_solves_vandermonde (fun _ yvals => yvals) [0; 1; 2; 3] [0; 1; 4; 9]
           [0; 1; 4; 9] 3).
  reflexivity.
Defined.

(** X4: when [polyfit] returns coefficients, [order + 1] of them, that
    solve the system exactly (the matrix times the coefficients is
    [yvals]), [polyeval] of these coefficients at every sample
    [xvals(j)] is [yvals(j)]. *)
Theorem polyfit_polyeval_interpolates
  (solve : list (list R) -> list R -> list R) (xvals yvals coeffs : list R) (order : Z)
  (j : nat) :
  polyfit solve xvals yvals order = Done coeffs ->
  length coeffs = S (Z.to_nat order) ->
  map (fun row => dot row coeffs) (design_matrix xvals (Z.to_nat order)) = yvals ->
  (j < length xvals)%nat ->
  polyeval coeffs (nth j xvals 0) = nth j yvals 0.
Proof.
  intros _ Hlen Hsolve Hj.
  rewrite <- Hsolve. unfold design_matrix. rewrite map_map.
  rewrite (nth_map_in_range _ xvals 0 j Hj).
  rewrite (dot_fill_row _ _ _ _ Hlen).
  unfold polyeval. rewrite polyeval_loop_horner. simpl. ring.
Qed.

Lemma polyfit_polyeval_interpolates_witness :
  polyeval [1; 2] (nth 1 [0; 1; 2] 0) = nth 1 [1; 3; 5] 0.
Proof.
  apply (polyfit_polyeval_interpolates (fun _ _ => [1; 2]) [0; 1; 2] [1; 3; 5] [1; 2] 1 1).
  - reflexivity.
  - reflexivity.
  - simpl. repeat (f_equal; try lra).
  - simpl. lia.
Defined.

(** ** The waypoint window, inside the vector and at the error index *)

(** X5: when the nearest index [c] is not negative and [c + 3] does not
    exceed the number of waypoints, the window loop returns the [x] and
    the [y] coordinates of the waypoints [c], [c + 1] and [c + 2], in
    this order. *)
Theorem window_in_bounds (wps : list Waypoint) (c : Z) :
  (0 <= c)%Z ->
  (c + 3 <= Z.of_nat (length wps))%Z ->
  (c + 3 < 2 ^ 64)%Z ->
  window wps (size_t_of c) =
  Done ([waypoint_x wps c; waypoint_x wps (c + 1); waypoint_x wps (c + 2)],
        [waypoint_y wps c; waypoint_y wps (c + 1); waypoint_y wps (c + 2)]).
Proof.
  intros H0 Hn H64.
  rewrite size_t_of_small by lia.
  unfold window. rewrite window_range_in_bounds by lia.
  unfold window_loop.
  rewrite (vector_at_Done wps (Z.to_nat c) (waypoint_at 0 0)) by lia.
  rewrite (vector_at_Done wps (Z.to_nat (c + 1)) (waypoint_at 0 0)) by lia.
  rewrite (vector_at_Done wps (Z.to_nat (c + 2)) (waypoint_at 0 0)) by lia.
  reflexivity.
Qed.

Lemma window_in_bounds_witness :
  window (lane_waypoints three_waypoints) (size_t_of 0) =
  Done ([waypoint_x (lane_waypoints three_waypoints) 0;
         waypoint_x (lane_waypoints three_waypoints) (0 + 1);
         waypoint_x (lane_waypoints three_waypoints) (0 + 2)],
        [waypoint_y (lane_waypoints three_waypoints) 0;
         waypoint_y (lane_waypoints three_waypoints) (0 + 1);
         waypoint_y (lane_waypoints three_waypoints) (0 + 2)]).
Proof.
  apply (window_in_bounds (lane_waypoints three_waypoints) 0); simpl; lia.
Defined.

(** X6: when [getClosestWaypoint] returns one of the negative values
    [-1], [-2], [-3] (it returns [-1] when it finds no waypoint), the
    conversion to [size_t] makes the index huge and the bound
    [closestWaypointIdx + 3] wraps around below it: the loop body never
    runs, no waypoint is read, and [ptsx] and [ptsy] stay empty,
    whatever the waypoint vector holds. *)
Theorem window_wraps_on_negative_index (wps : list Waypoint) (c : Z) :
  (-3 <= c < 0)%Z ->
  window wps (size_t_of c) = Done ([], []).
Proof.
  intros Hc.
  assert (Hidx : size_t_of c = (c + 2 ^ 64)%Z).
  { unfold size_t_of. symmetry. apply (Z.mod_unique _ _ (-1)); lia. }
  assert (Hbound : size_t_of (size_t_of c + 3) = (c + 3)%Z).
  { rewrite Hidx. unfold size_t_of. symmetry. apply (Z.mod_unique _ _ 1); lia. }
  unfold window. rewrite Hbound, Hidx. unfold range.
  replace (Z.to_nat (c + 3 - (c + 2 ^ 64))) with 0%nat by lia.
  reflexivity.
Qed.

Lemma window_wraps_on_negative_index_witness :
  window (lane_waypoints three_waypoints) (size_t_of (-1)) = Done ([], []).
Proof.
  apply (window_wraps_on_negative_index (lane_waypoints three_waypoints) (-1)). lia.
Defined.

(** ** The frame transformation and its inverse *)

Lemma local_of_global (px py psi lx ly : R) :
  local_x px py psi (global_x px psi lx ly) (global_y py psi lx ly) = lx /\
  local_y px py psi (global_x px psi lx ly) (global_y py psi lx ly) = ly.
Proof.
  unfold local_x, local_y, global_x, global_y.
  rewrite cos_neg, sin_neg.
  pose proof (sin2_cos2 psi) as H. unfold Rsqr in H.
  split.
  - transitivity (lx * (sin psi * sin psi + cos psi * cos psi)); [ring|].
    rewrite H. ring.
  - transitivity (ly * (sin psi * sin psi + cos psi * cos psi)); [ring|].
    rewrite H. ring.
Qed.

(** X7: round trip.  Take any points given by their coordinates
    [(lx, ly)] in the frame of the vehicle and place them in the global
    frame (rotate by [psi], shift by [(px, py)]): the loop of
    [calculate] maps these global points back to exactly the local
    coordinates they came from. *)
Theorem to_local_of_global (locals : list (R * R)) (px py psi : R) :
  to_local (map (fun p => global_x px psi (fst p) (snd p)) locals)
           (map (fun p => global_y py psi (fst p) (snd p)) locals) px py psi =
  Done (map fst locals, map snd locals).
Proof.
  rewrite to_local_Done by (rewrite !length_map; reflexivity).
  rewrite length_map.
  f_equal. f_equal.
  - apply (nth_ext _ _ 0 0).
    + rewrite !length_map, length_seq. reflexivity.
    + intros i Hi. rewrite length_map, length_seq in Hi.
      rewrite nth_map_seq by exact Hi.
      rewrite !(nth_map_in_range _ locals (0, 0) i Hi).
      apply local_of_global.
  - apply (nth_ext _ _ 0 0).
    + rewrite !length_map, length_seq. reflexivity.
    + intros i Hi. rewrite length_map, length_seq in Hi.
      rewrite nth_map_seq by exact Hi.
      rewrite !(nth_map_in_range _ locals (0, 0) i Hi).
      apply local_of_global.
Qed.

(** X8: for a vehicle at the origin with heading 0 the transformation
    changes nothing: the local buffers are the global ones. *)
Theorem to_local_identity_at_origin (ptsx ptsy : list R) :
  length ptsx = length ptsy ->
  to_local ptsx ptsy 0 0 0 = Done (ptsx, ptsy).
Proof.
  intros Hlen. rewrite (to_local_Done _ _ _ _ _ Hlen).
  f_equal. f_equal.
  - apply (nth_ext _ _ 0 0).
    + rewrite length_map, length_seq. reflexivity.
    + intros i Hi. rewrite length_map, length_seq in Hi.
      rewrite nth_map_seq by exact Hi.
      unfold local_x. rewrite Ropp_0, cos_0, sin_0. ring.
  - apply (nth_ext _ _ 0 0).
    + rewrite length_map, length_seq. exact Hlen.
    + intros i Hi. rewrite length_map, length_seq in Hi.
      rewrite nth_map_seq by exact Hi.
      unfold local_y. rewrite Ropp_0, cos_0, sin_0. ring.
Qed.

Lemma to_local_identity_at_origin_witness :
  to_local [1; 2; 3; 4; 5] [0; 0; 0; 0; 0] 0 0 0 =
  Done ([1; 2; 3; 4; 5], [0; 0; 0; 0; 0]).
Proof.
  apply (to_local_identity_at_origin [1; 2; 3; 4; 5] [0; 0; 0; 0; 0]). reflexivity.
Defined.

(** ** The state of the node across the turns of [run] *)

Lemma spinOnce_app (front back : list message) (s : DbwMpc) :
  spinOnce (front ++ back) s = spinOnce back (spinOnce front s).
Proof.
  unfold spinOnce. apply fold_left_app.
Qed.

(** The publishing does not touch the state: after any number of turns
    the state is the one the callbacks of all the messages leave. *)
Lemma run_loop_state (turns : list (list message)) (s : DbwMpc) :
  fst (run_loop turns s) = spinOnce (concat turns) s.
Proof.
  revert s. induction turns as [|pending later IH]; intros s; cbn [run_loop concat].
  - reflexivity.
  - rewrite spinOnce_app, <- IH.
    unfold loop_body. destruct (run_loop later (spinOnce pending s)). reflexivity.
Qed.

Lemma spinOnce_flags (pending : list message) (s : DbwMpc) :
  waypoint_set (spinOnce pending s) = waypoint_set s || existsb is_OnWaypoints pending /\
  pose_set (spinOnce pending s) = pose_set s || existsb is_OnPose pending /\
  velocity_set (spinOnce pending s) = velocity_set s || existsb is_OnVelocity pending.
Proof.
  unfold spinOnce. revert s.
  induction pending as [|m rest IH]; intros s; simpl.
  - rewrite !orb_false_r. repeat split.
  - destruct (IH (deliver s m)) as (Hw & Hp & Hv). rewrite Hw, Hp, Hv.
    destruct m; simpl; rewrite ?orb_true_r, ?orb_true_l; repeat split;
      reflexivity.
Qed.

(** X9: after any number of turns of the loop, each of the flags
    [waypoint_set], [pose_set] and [velocity_set] is set exactly when it
    was set before the loop or a message of its channel arrived in one
    of the turns: a flag is raised by the first message of its channel
    and nothing lowers it again. *)
Theorem flags_raised_by_receipt_only (turns : list (list message)) (s : DbwMpc) :
  waypoint_set (fst (run_loop turns s)) =
    waypoint_set s || existsb is_OnWaypoints (concat turns) /\
  pose_set (fst (run_loop turns s)) =
    pose_set s || existsb is_OnPose (concat turns) /\
  velocity_set (fst (run_loop turns s)) =
    velocity_set s || existsb is_OnVelocity (concat turns).
Proof.
  rewrite run_loop_state. apply spinOnce_flags.
Qed.

Lemma spinOnce_other_channels (back : list message) (m : message) (s : DbwMpc) :
  Forall (fun m' => same_channel m m' = false) back ->
  match m with
  | OnEnabled _ => enabled (spinOnce back s) = enabled s
  | OnWaypoints _ =>
      waypoints (spinOnce back s) = waypoints s /\
      waypoint_set (spinOnce back s) = waypoint_set s
  | OnPose _ =>
      pose (spinOnce back s) = pose s /\ pose_set (spinOnce back s) = pose_set s
  | OnVelocity _ =>
      velocity (spinOnce back s) = velocity s /\
      velocity_set (spinOnce back s) = velocity_set s
  end.
Proof.
  unfold spinOnce. intros H. revert s.
  induction H as [|m' rest Hm' _ IH]; intros s; simpl.
  - destruct m; repeat split.
  - specialize (IH (deliver s m')).
    destruct m, m'; simpl in Hm'; try discriminate; exact IH.
Qed.

(** X10: latest value wins.  When a message is followed, in the turns
    that come after it, by no other message of its own channel, the
    node holds the payload of this message as the value of the channel
    (and the flag of the channel is set), whatever was delivered before
    it and whatever other channels delivered after it. *)
Theorem latest_message_wins (front back : list message) (m : message) (s : DbwMpc) :
  Forall (fun m' => same_channel m m' = false) back ->
  let s' := spinOnce (front ++ m :: back) s in
  match m with
  | OnEnabled b => enabled s' = b
  | OnWaypoints l => waypoints s' = l /\ waypoint_set s' = true
  | OnPose p => pose s' = p /\ pose_set s' = true
  | OnVelocity t => velocity s' = t /\ velocity_set s' = true
  end.
Proof.
  intros Hback s'. subst s'.
  rewrite spinOnce_app.
  change (spinOnce (m :: back) (spinOnce front s))
    with (spinOnce back (deliver (spinOnce front s) m)).
  pose proof (spinOnce_other_channels back m (deliver (spinOnce front s) m) Hback) as H.
  destruct m; simpl in *.
  - exact H.
  - destruct H as [H1 H2]. split; assumption.
  - destruct H as [H1 H2]. split; assumption.
  - destruct H as [H1 H2]. split; assumption.
Qed.

Lemma latest_message_wins_witness :
  waypoints (spinOnce ([OnWaypoints Lane_default; OnEnabled true] ++
                       OnWaypoints three_waypoints ::
                       [OnPose PoseStamped_default; OnEnabled false])
                      (DbwMpc_new false false false 0 0)) = three_waypoints /\
  waypoint_set (spinOnce ([OnWaypoints Lane_default; OnEnabled true] ++
                          OnWaypoints three_waypoints ::
                          [OnPose PoseStamped_default; OnEnabled false])
                         (DbwMpc_new false false false 0 0)) = true.
Proof.
  apply (latest_message_wins [OnWaypoints Lane_default; OnEnabled true]
           [OnPose PoseStamped_default; OnEnabled false]
           (OnWaypoints three_waypoints) (DbwMpc_new false false false 0 0)).
  repeat constructor.
Defined.

(** ** When the loop publishes *)

Lemma spinOnce_stays_disabled (pending : list message) (s : DbwMpc) :
  enabled s = false ->
  Forall (fun m => m <> OnEnabled true) pending ->
  enabled (spinOnce pending s) = false.
Proof.
  unfold spinOnce. intros Hs H. revert s Hs.
  induction H as [|m rest Hm _ IH]; intros s Hs; simpl.
  - exact Hs.
  - apply IH. destruct m as [[|]| | |]; simpl; try assumption; try reflexivity.
    contradiction Hm. reflexivity.
Qed.

Lemma disabled_run_loop_silent (turns : list (list message)) (s : DbwMpc) :
  enabled s = false ->
  Forall (Forall (fun m => m <> OnEnabled true)) turns ->
  Forall (fun out => out = []) (snd (run_loop turns s)).
Proof.
  intros Hs H. revert s Hs.
  induction H as [|pending later Hp _ IH]; intros s Hs; cbn [run_loop].
  - constructor.
  - pose proof (spinOnce_stays_disabled pending s Hs Hp) as Hoff.
    unfold loop_body. specialize (IH (spinOnce pending s) Hoff).
    destruct (run_loop later (spinOnce pending s)) as [s'' outs].
    cbn [snd] in *. constructor; [|exact IH].
    unfold active. rewrite Hoff. reflexivity.
Qed.

(** X11: a node fresh from its constructor publishes nothing, in any
    turn, as long as no message [true] arrives on the enable channel:
    this holds whatever the uninitialised members held and whatever
    arrives on the three other channels. *)
Theorem never_enabled_never_publishes
  (turns : list (list message)) (waypoint_set0 velocity_set0 pose_set0 : bool)
  (steer_value0 throttle_value0 : R) :
  Forall (Forall (fun m => m <> OnEnabled true)) turns ->
  Forall (fun out => out = [])
    (snd (run_loop turns
            (DbwMpc_new waypoint_set0 velocity_set0 pose_set0
                        steer_value0 throttle_value0))).
Proof.
  apply disabled_run_loop_silent. reflexivity.
Qed.

Lemma never_enabled_never_publishes_witness :
  Forall (fun out => out = [])
    (snd (run_loop [[OnWaypoints three_waypoints; OnPose PoseStamped_default];
                    [OnVelocity TwistStamped_default; OnEnabled false]; []]
            (DbwMpc_new true true true 0 1))).
Proof.
  apply (never_enabled_never_publishes
           [[OnWaypoints three_waypoints; OnPose PoseStamped_default];
            [OnVelocity TwistStamped_default; OnEnabled false]; []]
           true true true 0 1).
  repeat constructor; discriminate.
Defined.

(** X12: a turn publishes something exactly when, after the callbacks
    of the turn have run, [enabled] and the three flags are all true;
    and what a turn publishes is either nothing or two messages. *)
Theorem turn_publishes_iff_all_flags (pending : list message) (s : DbwMpc) :
  let s' := spinOnce pending s in
  (snd (loop_body pending s) <> [] <->
   enabled s' = true /\ velocity_set s' = true /\
   waypoint_set s' = true /\ pose_set s' = true) /\
  (length (snd (loop_body pending s)) = 0%nat \/
   length (snd (loop_body pending s)) = 2%nat).
Proof.
  intros s'. unfold loop_body. cbn [snd]. fold s'.
  assert (Hact : active s' = true <->
                 enabled s' = true /\ velocity_set s' = true /\
                 waypoint_set s' = true /\ pose_set s' = true).
  { unfold active. rewrite !andb_true_iff. tauto. }
  destruct (active s').
  - split.
    + split; [intros _; apply Hact; reflexivity | intros _; unfold dispatch; discriminate].
    + right. unfold dispatch.
      destruct (Rlt_dec 0 (throttle_value s')); reflexivity.
  - split.
    + split; [intros H; contradiction H; reflexivity
             | intros H; apply Hact in H; discriminate].
    + left. reflexivity.
Qed.



(** ** The error estimate and the projected position *)

(** X14: [estimate_errors] needs the coefficient of degree 1: with
    fewer than two coefficients the read [coeffs[1]] fails Eigen's
    assertion; with two or more it returns, and the heading error lies
    strictly between [- PI / 2] and [PI / 2]. *)
Theorem estimate_errors_range (coeffs : list R) :
  ((length coeffs < 2)%nat -> estimate_errors coeffs = AssertionFailure) /\
  ((2 <= length coeffs)%nat ->
   exists cte epsi, estimate_errors coeffs = Done (cte, epsi) /\
                    - PI / 2 < epsi < PI / 2).
Proof.
  split; intros Hlen.
  - destruct coeffs as [|c0 [|c1 rest]]; simpl in Hlen; try lia; reflexivity.
  - destruct coeffs as [|c0 [|c1 rest]]; simpl in Hlen; try lia.
    eexists. eexists. split; [reflexivity|].
    pose proof (atan_bound c1). lra.
Qed.

Lemma estimate_errors_range_witness :
  estimate_errors [7] = AssertionFailure /\
  exists cte epsi, estimate_errors [0; 1; 0; 0] = Done (cte, epsi) /\
                   - PI / 2 < epsi < PI / 2.
Proof.
  split.
  - apply (proj1 (estimate_errors_range [7])). simpl. lia.
  - apply (proj2 (estimate_errors_range [0; 1; 0; 0])). simpl. lia.
Defined.

(** X15: the position projected over the latency window lies at the
    distance [v * latency] from the origin of the local frame, whatever
    the last steering value: the square of its distance is
    [(v / 10) ^ 2]. *)
Theorem compensate_latency_displacement (steer throttle v cte epsi : R) :
  let state := compensate_latency steer throttle v cte epsi in
  nth 0 state 0 * nth 0 state 0 + nth 1 state 0 * nth 1 state 0 =
  (v * latency) * (v * latency) /\
  v * latency = v / 10.
Proof.
  simpl. unfold latency.
  pose proof (sin2_cos2 (- steer)) as H. unfold Rsqr in H.
  split; [|lra].
  transitivity ((v * (1 / 10)) * (v * (1 / 10)) *
                (sin (- steer) * sin (- steer) + cos (- steer) * cos (- steer))).
  - ring.
  - rewrite H. ring.
Qed.
